(** * Spanish text validator: a shallow embedding of [validator_app.py]

    The program checks a text against a vocabulary.  [validate_text] runs a
    part-of-speech tagger over the text, tokenises the lowercased text with
    the pattern [\b\w+\b], and counts the tokens that are neither in the
    vocabulary, nor proper nouns, nor numeral-like.
    [format_text_with_highlights] scans the original text with the same
    pattern and wraps the flagged tokens in markup.  [main] is the page
    script with its two input guards.

    Python strings are sequences of Unicode code points, so a string is a
    list of code points here.  The Unicode character database ([\w],
    [str.lower], [str.strip]) and the tagger are collaborators of the
    program, not part of it: the first is an interface ([UnicodeData]), the
    second a field of the validator object. *)

From Stdlib Require Import NArith.
From stdpp Require Import base decidable list gmap sets strings.

(** ** Strings *)

(** A code point. *)
Definition char := N.

Abbreviation str := (list char).

(** The part of the Unicode database the program reads.  [str_lower] works
    on whole strings, as [str.lower] does: it may change the length of a
    string and it may depend on the neighbours of a character. *)
Class UnicodeData := {
  isalnum : char → bool;
  str_lower : str → str;
  isspace : char → bool
}.

(** An ASCII literal as a Python string. *)
Definition lit (s : string) : str :=
  Ascii.N_of_ascii <$> String.list_ascii_of_string s.

(** The digits of the pattern class [0-9]. *)
Definition is_digit (c : char) : bool := (48 <=? c)%N && (c <=? 57)%N.

(** [text[a:b]] for [0 <= a], [0 <= b]: empty when [b <= a] or when [a] is
    past the end, cut at the end of the string. *)
Definition slice (text : str) (a b : nat) : str := take (b - a) (drop a text).

(** ** The regular expression [\b\w+\b] *)

Section regex.
Context `{UnicodeData}.

(** [\w] on a [str] pattern: alphanumeric, or the underscore. *)
Definition is_word (c : char) : bool := isalnum c || (c =? 95)%N.

(** A match object: its span in the scanned string. *)
Record Match := { start : nat; end_ : nat }.

Definition group (text : str) (m : Match) : str :=
  slice text (start m) (end_ m).

(** The scan of [re.finditer].  [pos] is the offset of the next character,
    [run] the offset where the word run that is being read began.  A run
    begins at a word character that follows a non-word character or the
    start of the string (the first [\b]); [\w+] is greedy, so the run is
    closed at the first non-word character or at the end of the string,
    where the second [\b] holds. *)
Fixpoint scan (pos : nat) (run : option nat) (rest : str) : list Match :=
  match rest with
  | [] =>
      match run with
      | Some s => [ {| start := s; end_ := pos |} ]
      | None => []
      end
  | c :: rest' =>
      if is_word c then scan (S pos) (Some (default pos run)) rest'
      else
        match run with
        | Some s => {| start := s; end_ := pos |} :: scan (S pos) None rest'
        | None => scan (S pos) None rest'
        end
  end.

(** [re.finditer(r'\b\w+\b', text)] *)
Definition finditer (text : str) : list Match := scan 0 None text.

(** [re.findall(r'\b\w+\b', text)] *)
Definition findall (text : str) : list str := group text <$> finditer text.

(** What the pattern says, independently of the scan: [\b] at offset [i]
    holds when exactly one of the characters before and after [i] is a
    word character (a missing character counts as a non-word one). *)
Definition word_at (text : str) (i : nat) : bool :=
  from_option is_word false (text !! i).

Definition boundary (text : str) (i : nat) : Prop :=
  (match i with 0 => false | S j => word_at text j end) ≠ word_at text i.

(** [text[s:e]] is matched by [\b\w+\b]. *)
Definition matches (text : str) (s e : nat) : Prop :=
  boundary text s ∧ s < e ∧ e ≤ length text ∧
  (∀ i, s ≤ i < e → word_at text i = true) ∧ boundary text e.

(** What the scan knows when it stands at [pos]. *)
Definition scan_inv (text : str) (pos : nat) (run : option nat) : Prop :=
  match run with
  | Some s =>
      s < pos ∧ boundary text s ∧ ∀ i, s ≤ i < pos → word_at text i = true
  | None => match pos with 0 => True | S j => word_at text j = false end
  end.

(** A non-word character, [\W]. *)
Definition nonword (c : char) : bool := negb (is_word c).
End regex.

(** The matches from [cur] on are in increasing order and do not touch. *)
Fixpoint ordered (cur : nat) (ms : list Match) : Prop :=
  match ms with
  | [] => True
  | m :: ms' => cur ≤ start m ∧ start m < end_ m ∧ ordered (S (end_ m)) ms'
  end.

(** The text cut along the matches: each token with the gap before it. *)
Fixpoint pieces (text : str) (current_pos : nat) (ms : list Match)
    : list (str * str) :=
  match ms with
  | [] => []
  | m :: ms' =>
      (slice text current_pos (start m), group text m)
        :: pieces text (end_ m) ms'
  end.

(** Where the last match ends. *)
Fixpoint last_pos (current_pos : nat) (ms : list Match) : nat :=
  match ms with
  | [] => current_pos
  | m :: ms' => last_pos (end_ m) ms'
  end.

(** The gaps and the rewritten tokens put together again. *)
Definition assemble (f : str → str) (ps : list (str * str)) (rest : str)
    : str :=
  concat ((λ p, p.1 ++ f p.2) <$> ps) ++ rest.

(** The parts list of a text cut in pieces: gap, token, gap, token, ... *)
Fixpoint lay (f : str → str) (ps : list (str * str)) : list str :=
  match ps with
  | [] => []
  | p :: ps' => p.1 :: f p.2 :: lay f ps'
  end.

(** ** [collections.Counter] *)

(** A dictionary keeps its keys in insertion order, so a counter is an
    association list in first-insertion order. *)
Abbreviation Counter := (list (str * nat)).

(** [c[k] += 1], inserting [k] at the end when it is new. *)
Fixpoint incr (k : str) (c : Counter) : Counter :=
  match c with
  | [] => [(k, 1)]
  | (k', n) :: c' =>
      if decide (k = k') then (k', S n) :: c' else (k', n) :: incr k c'
  end.

(** [Counter(iterable)] *)
Definition counter_of (l : list str) : Counter :=
  foldl (λ c k, incr k c) [] l.

Definition keys (c : Counter) : list str := c.*1.

(** [c[k]]: a missing key counts 0. *)
Fixpoint count (c : Counter) (k : str) : nat :=
  match c with
  | [] => 0
  | (k', n) :: c' => if decide (k = k') then n else count c' k
  end.

(** The distinct elements of a list, in the order of their first
    occurrence. *)
Fixpoint first_seen (l : list str) : list str :=
  match l with
  | [] => []
  | x :: l' => x :: filter (λ y, y ≠ x) (first_seen l')
  end.

(** How often [k] occurs in [l]. *)
Definition occurrences (k : str) (l : list str) : nat :=
  length (filter (λ w, w = k) l).

(** ** The validator *)

(** What the program reads of a tagged token. *)
Record Token := { text_ : str; pos_ : string; like_num : bool }.

(** [self.nlp]: the loaded tagging model. *)
Record SpanishValidator := { nlp : str → list Token }.

(** The dictionary [validate_text] returns. *)
Record Result := { compliant : bool; errors : Counter }.

Section validator.
Context `{UnicodeData}.

Definition proper_nouns_of (doc : list Token) : gset str :=
  list_to_set
    ((λ token, str_lower (text_ token)) <$>
       filter (λ token, pos_ token = "PROPN") doc).

Definition numbers_of (doc : list Token) : gset str :=
  list_to_set
    ((λ token, str_lower (text_ token)) <$>
       filter (λ token, like_num token = true) doc).

(** The list [non_compliant_words] of [validate_text], with the sets and
    the words it is filtered from. *)
Definition non_compliant_words_of
    (self : SpanishValidator) (text : str) (vocabulary : gset str)
    : list str :=
  let doc := nlp self text in
  let proper_nouns := proper_nouns_of doc in
  let numbers := numbers_of doc in
  let words := findall (str_lower text) in
  filter (λ word, (word ∉ vocabulary) ∧ (word ∉ proper_nouns) ∧ (word ∉ numbers))
         words.

Definition validate_text
    (self : SpanishValidator) (text : str) (vocabulary : gset str)
    : Result :=
  let non_compliant_words := non_compliant_words_of self text vocabulary in
  let error_counts := counter_of non_compliant_words in
  {| compliant := bool_decide (length non_compliant_words = 0);
     errors := error_counts |}.

(** The words of the specification: a word is non-compliant when it is
    not in the vocabulary, no token tagged as a proper noun has it as its
    lowercased text, and no token flagged numeral-like has. *)
Definition non_compliant (self : SpanishValidator) (text : str)
    (vocabulary : gset str) (word : str) : Prop :=
  (word ∉ vocabulary) ∧
  (¬ ∃ token, token ∈ nlp self text ∧ pos_ token = "PROPN" ∧
              str_lower (text_ token) = word) ∧
  (¬ ∃ token, token ∈ nlp self text ∧ like_num token = true ∧
              str_lower (text_ token) = word).

End validator.

(** ** The highlighter *)

(** The two halves of [f'<span style="color: red">{word}</span>']; code
    point 34 is the double quote. *)
Definition span_open : str :=
  lit "<span style=" ++ [34%N] ++ lit "color: red" ++ [34%N] ++ lit ">".

Definition span_close : str := lit "</span>".

Definition span (word : str) : str := span_open ++ word ++ span_close.

Section highlighter.
Context `{UnicodeData}.

(** The set comprehension at the top of the function; [error_words] is
    any iterable of strings. *)
Definition error_words_lower_of (error_words : list str) : gset str :=
  list_to_set (str_lower <$> error_words).

(** What the loop appends for a token. *)
Definition emit (error_words_lower : gset str) (word : str) : str :=
  if bool_decide (str_lower word ∈ error_words_lower) then span word
  else word.

(** One turn of the [for match in re.finditer(...)] loop, on the pair of
    [formatted_parts] and [current_pos]. *)
Definition highlight_step (text : str) (error_words_lower : gset str)
    (st : list str * nat) (m : Match) : list str * nat :=
  let '(formatted_parts, current_pos) := st in
  let formatted_parts :=
    formatted_parts ++ [slice text current_pos (start m)] in
  let word := group text m in
  let formatted_parts :=
    formatted_parts ++ [emit error_words_lower word] in
  (formatted_parts, end_ m).

(** [formatted_parts] when the function returns. *)
Definition formatted_parts_of (text : str) (error_words : list str)
    : list str :=
  let error_words_lower := error_words_lower_of error_words in
  let '(formatted_parts, current_pos) :=
    foldl (highlight_step text error_words_lower) ([], 0) (finditer text) in
  formatted_parts ++ [drop current_pos text].

Definition format_text_with_highlights (text : str)
    (error_words : list str) : str :=
  concat (formatted_parts_of text error_words).

(** A token is flagged when it equals one of the error words once both
    are lowercased. *)
Definition flagged (error_words : list str) (word : str) : Prop :=
  Exists (λ w, str_lower word = str_lower w) error_words.

(** What the specification asks for a token: markup around the flagged
    ones, the others as they are. *)
Definition mark (error_words : list str) (word : str) : str :=
  if decide (flagged error_words word) then span word else word.
End highlighter.

(** ** The page script *)

(** What a run of the script does, in order: the calls into the page
    framework that show something, and the call of the validator. *)
Inductive markdown :=
| md_css
| md_results_heading
| md_compliant
| md_non_compliant
| md_bullet (word : str) (times : option nat)
| md_highlight_heading
| md_highlighted (highlighted_text : str).

Inductive effect :=
| st_set_page_config
| st_markdown (m : markdown)
| st_title
| st_success (words : nat)
| st_warning (msg : string)
| call_validate_text (text : str) (vocabulary : gset str).

Section page.
Context `{UnicodeData}.

Fixpoint lstrip (s : str) : str :=
  match s with
  | c :: s' => if isspace c then lstrip s' else s
  | [] => []
  end.

(** [str.strip()] *)
Definition strip (s : str) : str := reverse (lstrip (reverse (lstrip s))).

(** The vocabulary comprehension, on the decoded lines of the upload. *)
Definition load_vocabulary (lines : list str) : gset str :=
  list_to_set
    ((λ line, str_lower (strip line)) <$>
       filter (λ line, strip line ≠ []) lines).

(** The bullet of a flagged word: the count is shown when above 1. *)
Definition bullet (entry : str * nat) : effect :=
  let '(word, count) := entry in
  st_markdown (md_bullet word (if decide (1 < count) then Some count else None)).

(** The body of [if st.button("Validate Text"):]. *)
Definition on_validate (validator : SpanishValidator)
    (vocabulary : gset str) (text_input : str) : list effect :=
  if decide (vocabulary = ∅) then
    [st_warning "Please load a vocabulary file first."]
  else if decide (strip text_input = []) then
    [st_warning "Please enter some text to validate."]
  else
    let result := validate_text validator text_input vocabulary in
    [call_validate_text text_input vocabulary;
     st_markdown md_results_heading] ++
    (if compliant result then [st_markdown md_compliant]
     else st_markdown md_non_compliant :: (bullet <$> errors result)) ++
    [st_markdown md_highlight_heading;
     st_markdown
       (md_highlighted
          (format_text_with_highlights text_input (keys (errors result))))].

(** The vocabulary of a run: empty until a file is uploaded. *)
Definition vocabulary_of (uploaded_file : option (list str)) : gset str :=
  match uploaded_file with
  | Some lines => load_vocabulary lines
  | None => ∅
  end.

(** One run of [main]: the widgets give the uploaded lines (if any), the
    text of the text area and whether the button was pressed. *)
Definition main (validator : SpanishValidator)
    (uploaded_file : option (list str)) (text_input : str) (button : bool)
    : list effect :=
  let vocabulary := vocabulary_of uploaded_file in
  [st_set_page_config; st_markdown md_css; st_title] ++
  (match uploaded_file with
   | Some _ => [st_success (size vocabulary)]
   | None => []
   end) ++
  (if button then on_validate validator vocabulary text_input else []).

(** The effects that make up a validation result. *)
Definition is_result (e : effect) : bool :=
  match e with
  | call_validate_text _ _ => true
  | st_markdown md_css => false
  | st_markdown _ => true
  | _ => false
  end.
End page.

(** ** A concrete character table: Latin-1

    The Unicode data of the code points below 256, where lowercasing works
    character by character.  Code points from 256 on are outside this table:
    it treats them as caseless non-word characters, except for the white
    space among them. *)
Module Latin1.
Definition in_range (lo hi c : N) : bool := ((lo <=? c) && (c <=? hi))%N.

Definition alnum (c : char) : bool :=
  in_range 48 57 c || in_range 65 90 c || in_range 97 122 c ||
  (c =? 170)%N || in_range 178 179 c || (c =? 181)%N ||
  in_range 185 186 c || in_range 188 190 c ||
  in_range 192 214 c || in_range 216 246 c || in_range 248 255 c.

Definition lower_char (c : char) : char :=
  if in_range 65 90 c || in_range 192 214 c || in_range 216 222 c
  then (c + 32)%N else c.

Definition space (c : char) : bool :=
  in_range 9 13 c || in_range 28 32 c || (c =? 133)%N || (c =? 160)%N ||
  (c =? 5760)%N || in_range 8192 8202 c || in_range 8232 8233 c ||
  (c =? 8239)%N || (c =? 8287)%N || (c =? 12288)%N.

#[export] Instance table : UnicodeData :=
  {| isalnum := alnum; str_lower := fmap lower_char; isspace := space |}.
End Latin1.

(** ** A stand-in for the tagger

    The tagging model is outside the program.  To run the program on a
    concrete text, [whitespace_tagger names] cuts the text at white space,
    tags the tokens listed in [names] as proper nouns, and flags a token
    numeral-like by the digit rule of the tagger's Spanish [like_num]: an
    optional sign, then digits once every [,] and [.] is deleted. *)
Module Stub.
Import Latin1.

Definition drop_sign (s : str) : str :=
  match s with
  | c :: s' => if bool_decide (c ∈ [43; 45; 177; 126]%N) then s' else s
  | [] => []
  end.

Definition like_num_es (s : str) : bool :=
  let digits := filter (λ c, c ≠ 44%N ∧ c ≠ 46%N) (drop_sign s) in
  bool_decide (digits ≠ []) && forallb is_digit digits.

(** Cut [s] at white space; [cur] is the token being read, reversed. *)
Fixpoint split_ws (cur : str) (s : str) : list str :=
  match s with
  | [] => match cur with [] => [] | _ => [reverse cur] end
  | c :: s' =>
      if space c then
        match cur with
        | [] => split_ws [] s'
        | _ => reverse cur :: split_ws [] s'
        end
      else split_ws (c :: cur) s'
  end.

Definition tag (names : list str) (s : str) : Token :=
  {| text_ := s;
     pos_ := if bool_decide (s ∈ names) then "PROPN"
             else if like_num_es s then "NUM" else "X";
     like_num := like_num_es s |}.

Definition whitespace_tagger (names : list str) : SpanishValidator :=
  {| nlp := λ text, tag names <$> split_ws [] text |}.
End Stub.

(** ** Texts and vocabularies to run the program on *)

Module Examples.
Definition words_of (l : list string) : gset str := list_to_set (lit <$> l).

Definition tagger : SpanishValidator := Stub.whitespace_tagger [lit "Fluffy"].

Definition gato_vocabulary : gset str :=
  words_of ["el"; "gato"; "come"; "pescado"].
Definition gato_text : str := lit "El gato Fluffy come 3 pescados hoy".

Definition hola_vocabulary : gset str := words_of ["hola"; "mundo"].
Definition hola_text : str := lit "Hola mundo hola MUNDO".

Definition precio_vocabulary : gset str := words_of ["cuesta"; "euros"].
Definition precio_text : str := lit "Cuesta 12.5 euros".
End Examples.

(** ** Uploads to run the page on *)

Module Uploads.
(** The lines of a vocabulary file as [readlines] gives them, with their
    line ends (code point 10), a blank line and words in mixed case. *)
Definition gato_lines : list str :=
  [lit "el" ++ [10%N]; lit "  Gato " ++ [10%N]; [10%N];
   lit "COME" ++ [10%N]; lit "pescado"].

Definition hola_lines : list str :=
  [lit "Hola" ++ [10%N]; lit "mundo" ++ [10%N]].
End Uploads.

(** ** A vocabulary that was not lowercased *)

Module Mixed.

End Mixed.

(** ** A character table where lowercasing changes the length

    Latin-1 with U+0130, the capital I with a dot above: a letter whose
    lowercase form is [i] followed by U+0307, the combining dot above,
    which is not a word character. *)
Module Dotted.
Definition lower_one (c : char) : str :=
  if (c =? 304)%N then [105%N; 775%N] else [Latin1.lower_char c].

Definition alnum (c : char) : bool := Latin1.alnum c || (c =? 304)%N.

#[export] Instance table : UnicodeData :=
  {| isalnum := alnum;
     str_lower := λ s, concat (lower_one <$> s);
     isspace := Latin1.space |}.

(** The text [İ i]. *)
Definition dotted_text : str := [304%N; 32%N; 105%N].
End Dotted.

(** * Properties *)

Ltac by_compute :=
  match goal with
  | |- ?P => apply (@bool_decide_unpack P _); vm_compute; exact I
  end.

(** ** Slices *)

Lemma slice_app_drop (text : str) (a b : nat) :
  a ≤ b → slice text a b ++ drop b text = drop a text.
Proof.
  intros Hab. unfold slice.
  replace (drop b text) with (drop (b - a) (drop a text)).
  - apply take_drop.
  - rewrite drop_drop. f_equal. lia.
Qed.

Lemma slice_lookup (text : str) (a b i : nat) :
  slice text a b !! i = if decide (i < b - a) then text !! (a + i) else None.
Proof.
  unfold slice. case_decide.
  - rewrite lookup_take_lt by done. apply lookup_drop.
  - apply lookup_take_ge. lia.
Qed.

Lemma slice_fmap (f : char → char) (text : str) (a b : nat) :
  slice (f <$> text) a b = f <$> slice text a b.
Proof. unfold slice. by rewrite fmap_take, fmap_drop. Qed.

Lemma forallb_slice (P : char → bool) (text : str) (a b : nat) :
  (∀ i c, a ≤ i < b → text !! i = Some c → P c = true) →
  forallb P (slice text a b) = true.
Proof.
  intros HP. apply forallb_forall. intros c [i Hi]%list_elem_of_In%list_elem_of_lookup.
  rewrite slice_lookup in Hi. case_decide; [|done].
  eapply (HP (a + i)); [lia|done].
Qed.

(** ** The scan finds the matches of the pattern *)

Section regex_facts.
Context `{UnicodeData}.

Lemma word_at_middle (pre rest : str) (c : char) :
  word_at (pre ++ c :: rest) (length pre) = is_word c.
Proof. unfold word_at. by rewrite list_lookup_middle. Qed.

Lemma word_at_ge (text : str) (i : nat) :
  length text ≤ i → word_at text i = false.
Proof. intros Hi. unfold word_at. by rewrite lookup_ge_None_2. Qed.

Lemma word_at_lt (text : str) (i : nat) :
  word_at text i = true → i < length text.
Proof.
  intros Hi. destruct (decide (i < length text)); [done|].
  rewrite word_at_ge in Hi by lia. done.
Qed.

Lemma scan_sound (rest : str) : ∀ (pre : str) (run : option nat) (m : Match),
  scan_inv (pre ++ rest) (length pre) run →
  m ∈ scan (length pre) run rest →
  matches (pre ++ rest) (start m) (end_ m).
Proof.
  induction rest as [|c rest IH]; intros pre run m Hinv Hm.
  - destruct run as [s|]; simpl in Hm; [|by apply elem_of_nil in Hm].
    apply list_elem_of_singleton in Hm as ->. simpl.
    destruct Hinv as (Hs & Hb & Hw). rewrite app_nil_r in *.
    repeat split; [done|done|done|done|].
    unfold boundary. destruct (length pre) as [|j] eqn:Hlen; [lia|].
    rewrite (Hw j) by lia. rewrite word_at_ge by lia. done.
  - pose proof (word_at_middle pre rest c) as Hc.
    assert (Hlen : length (pre ++ [c]) = S (length pre))
      by (rewrite length_app; simpl; lia).
    simpl in Hm. rewrite (cons_middle c pre rest), (assoc (++)) in *.
    destruct (is_word c) eqn:Hwc.
    + rewrite <- Hlen in Hm. apply (IH _ _ _) in Hm; [done|].
      rewrite Hlen. destruct run as [s|]; simpl.
      * destruct Hinv as (Hs & Hb & Hw). repeat split; [lia|done|].
        intros i Hi. destruct (decide (i = length pre)) as [->|]; [done|].
        apply Hw. lia.
      * repeat split; [lia| |intros i Hi; by replace i with (length pre) by lia].
        unfold boundary. simpl in Hinv.
        destruct (length pre); rewrite Hc; [done|]. by rewrite Hinv.
    + assert (Hnext : scan_inv ((pre ++ [c]) ++ rest) (length (pre ++ [c])) None)
        by (rewrite Hlen; simpl; done).
      destruct run as [s|]; [|rewrite <- Hlen in Hm; by apply (IH _ _ _ Hnext)].
      apply elem_of_cons in Hm as [->|Hm];
        [|rewrite <- Hlen in Hm; by apply (IH _ _ _ Hnext)].
      simpl. destruct Hinv as (Hs & Hb & Hw).
      repeat split; [done|done| |done|].
      * rewrite !length_app. simpl. lia.
      * unfold boundary. destruct (length pre) as [|j] eqn:Hl; [lia|].
        rewrite (Hw j) by lia. by rewrite Hc.
Qed.

Lemma scan_cover (rest : str) : ∀ (pre : str) (run : option nat) (i : nat),
  word_at (pre ++ rest) i = true →
  default (length pre) run ≤ i →
  (∀ s, run = Some s → s < length pre) →
  ∃ m, m ∈ scan (length pre) run rest ∧ start m ≤ i < end_ m.
Proof.
  induction rest as [|c rest IH]; intros pre run i Hi Hle Hrun.
  - apply word_at_lt in Hi. rewrite app_nil_r in Hi.
    destruct run as [s|]; simpl in *; [|lia].
    eexists; split; [apply list_elem_of_singleton; done|]. simpl. lia.
  - pose proof (word_at_middle pre rest c) as Hc.
    assert (Hlen : length (pre ++ [c]) = S (length pre))
      by (rewrite length_app; simpl; lia).
    simpl. rewrite (cons_middle c pre rest), (assoc (++)) in *.
    destruct (is_word c) eqn:Hwc.
    + rewrite <- Hlen. apply IH; [done| |].
      * destruct run; simpl in *; lia.
      * intros s [= <-]. rewrite Hlen.
        specialize (Hrun (default (length pre) run)).
        destruct run; simpl in *; [apply Nat.lt_lt_succ_r, Hrun; done|lia].
    + assert (i ≠ length pre) by (intros ->; congruence).
      destruct run as [s|]; simpl in Hle.
      * destruct (decide (i < length pre)).
        { eexists; split; [apply elem_of_cons; by left|]. simpl. lia. }
        destruct (IH (pre ++ [c]) None i) as (m & Hm & Hmi);
          [done|simpl; lia|done|].
        exists m. split; [|done]. rewrite Hlen in Hm. apply elem_of_cons. by right.
      * rewrite <- Hlen. apply IH; [done|simpl; lia|done].
Qed.

Lemma scan_ordered (rest : str) : ∀ (pos cur : nat) (run : option nat),
  match run with Some s => cur ≤ s < pos | None => cur ≤ pos end →
  ordered cur (scan pos run rest).
Proof.
  induction rest as [|c rest IH]; intros pos cur run Hrun; simpl.
  - destruct run; simpl; [lia|done].
  - destruct (is_word c).
    + apply IH. destruct run; simpl; lia.
    + destruct run; simpl; [|apply IH; lia].
      split; [lia|]. split; [lia|]. apply IH. lia.
Qed.

(** Two matches that share a character are the same match, so the
    alternatives of a backtracking search never differ. *)
Lemma matches_overlap (text : str) (s e s' e' : nat) :
  matches text s e → matches text s' e' → s' ≤ s < e' → s = s' ∧ e = e'.
Proof.
  intros (Hb & Hse & He & Hw & Hbe) (Hb' & Hse' & He' & Hw' & Hbe') Hov.
  assert (s = s') as ->.
  { destruct (decide (s = s')); [done|]. exfalso.
    unfold boundary in Hb. destruct s as [|j]; [lia|].
    rewrite (Hw' j), (Hw' (S j)) in Hb by lia. done. }
  split; [done|].
  destruct (decide (e = e')); [done|]. exfalso.
  destruct (decide (e < e')).
  - unfold boundary in Hbe. destruct e as [|j]; [lia|].
    rewrite (Hw' j), (Hw' (S j)) in Hbe by lia. done.
  - unfold boundary in Hbe'. destruct e' as [|j]; [lia|].
    rewrite (Hw j), (Hw (S j)) in Hbe' by lia. done.
Qed.

Lemma finditer_sound (text : str) (m : Match) :
  m ∈ finditer text → matches text (start m) (end_ m).
Proof. intros Hm. by apply (scan_sound text [] None m). Qed.

Lemma finditer_cover (text : str) (i : nat) :
  word_at text i = true →
  ∃ m, m ∈ finditer text ∧ start m ≤ i < end_ m.
Proof.
  intros Hi. apply (scan_cover text [] None i); [done|simpl; lia|done].
Qed.

(** [finditer] yields exactly the substrings the pattern matches... *)
Lemma finditer_matches (text : str) (s e : nat) :
  {| start := s; end_ := e |} ∈ finditer text ↔ matches text s e.
Proof.
  split; [apply finditer_sound|]. intros Hm.
  destruct (finditer_cover text s) as ([s' e'] & Hin & Hs).
  { destruct Hm as (_ & ? & _ & Hw & _). apply Hw. lia. }
  simpl in Hs. pose proof (finditer_sound _ _ Hin) as Hm'. simpl in Hm'.
  destruct (matches_overlap _ _ _ _ _ Hm Hm' Hs) as [-> ->]. done.
Qed.

(** ... from left to right, each once. *)
Lemma finditer_ordered (text : str) : ordered 0 (finditer text).
Proof. apply scan_ordered. lia. Qed.
End regex_facts.

(** ** The text as gaps and tokens *)

Lemma ordered_weaken (cur cur' : nat) (ms : list Match) :
  cur' ≤ cur → ordered cur ms → ordered cur' ms.
Proof. destruct ms; simpl; [done|]. intros ? (? & ? & ?). repeat split; [lia|done..]. Qed.

Lemma ordered_elem (cur : nat) (ms : list Match) (m : Match) :
  ordered cur ms → m ∈ ms → cur ≤ start m ∧ start m < end_ m.
Proof.
  revert cur. induction ms as [|m' ms IH]; intros cur Hord Hm.
  - by apply elem_of_nil in Hm.
  - destruct Hord as (? & ? & Hord). apply elem_of_cons in Hm as [->|Hm]; [done|].
    destruct (IH _ Hord Hm). lia.
Qed.

Lemma pieces_tokens (text : str) (cur : nat) (ms : list Match) :
  (pieces text cur ms).*2 = group text <$> ms.
Proof. revert cur. induction ms as [|m ms IH]; intros cur; simpl; [done|]. by rewrite IH. Qed.

Lemma assemble_pieces (text : str) (ms : list Match) : ∀ cur,
  ordered cur ms →
  assemble id (pieces text cur ms) (drop (last_pos cur ms) text)
  = drop cur text.
Proof.
  unfold assemble. induction ms as [|m ms IH]; intros cur Hord; [done|].
  destruct Hord as (Hs & He & Hord). apply (ordered_weaken _ (end_ m)) in Hord; [|lia].
  cbn [pieces last_pos]. rewrite fmap_cons. cbn [concat fst snd].
  rewrite <- !(assoc (++)), (IH _ Hord). unfold group, id.
  rewrite slice_app_drop by lia. apply slice_app_drop. done.
Qed.

Section pieces_facts.
Context `{UnicodeData}.

Lemma pieces_gaps (text : str) (ms : list Match) : ∀ cur,
  ordered cur ms →
  (∀ i, cur ≤ i → word_at text i = true →
        ∃ m, m ∈ ms ∧ start m ≤ i < end_ m) →
  Forall (λ p, forallb nonword p.1 = true) (pieces text cur ms) ∧
  forallb nonword (drop (last_pos cur ms) text) = true.
Proof.
  induction ms as [|m ms IH]; intros cur Hord Hcov; simpl.
  - split; [done|]. apply forallb_forall.
    intros c [i Hi]%list_elem_of_In%list_elem_of_lookup.
    rewrite lookup_drop in Hi. unfold nonword.
    destruct (is_word c) eqn:Hc; [|done].
    destruct (Hcov (cur + i)) as (m & []%elem_of_nil & _); [lia|].
    unfold word_at. by rewrite Hi.
  - destruct Hord as (Hs & He & Hord). split_and!.
    + constructor; simpl.
      * apply forallb_slice. intros i c Hi Hc. unfold nonword.
        destruct (is_word c) eqn:Hwc; [|done].
        destruct (Hcov i) as (m' & Hm' & Hi'); [lia|unfold word_at; by rewrite Hc|].
        apply elem_of_cons in Hm' as [->|Hm']; [lia|].
        destruct (ordered_elem _ _ _ Hord Hm'). lia.
      * apply IH; [by apply (ordered_weaken (S (end_ m))); [lia|]|].
        intros i Hi Hw. destruct (Hcov i) as (m' & Hm' & Hi'); [lia|done|].
        apply elem_of_cons in Hm' as [->|Hm']; [lia|]. eauto.
    + apply IH; [by apply (ordered_weaken (S (end_ m))); [lia|]|].
      intros i Hi Hw. destruct (Hcov i) as (m' & Hm' & Hi'); [lia|done|].
      apply elem_of_cons in Hm' as [->|Hm']; [lia|]. eauto.
Qed.

Lemma group_word (text : str) (m : Match) :
  matches text (start m) (end_ m) →
  group text m ≠ [] ∧ forallb is_word (group text m) = true.
Proof.
  intros (_ & Hse & He & Hw & _). split.
  - intros Hnil%(f_equal length). unfold group, slice in Hnil.
    rewrite length_take, length_drop in Hnil. simpl in Hnil. lia.
  - apply forallb_slice. intros i c Hi Hc. specialize (Hw i Hi).
    unfold word_at in Hw. by rewrite Hc in Hw.
Qed.

(** The gaps of a text hold no word character, its tokens nothing else. *)
Lemma finditer_pieces (text : str) :
  let ms := finditer text in
  text = assemble id (pieces text 0 ms) (drop (last_pos 0 ms) text) ∧
  Forall (λ p, forallb nonword p.1 = true ∧
               p.2 ≠ [] ∧ forallb is_word p.2 = true) (pieces text 0 ms) ∧
  forallb nonword (drop (last_pos 0 ms) text) = true.
Proof.
  intros ms. pose proof (finditer_ordered text) as Hord.
  destruct (pieces_gaps text ms 0 Hord) as [Hgaps Hrest].
  { intros i _. apply finditer_cover. }
  split; [by rewrite (assemble_pieces text ms 0 Hord)|]. split; [|done].
  apply Forall_forall. intros p Hp. split.
  - by apply (proj1 (Forall_forall _ _) Hgaps).
  - assert (p.2 ∈ group text <$> ms) as (m & -> & Hm)%list_elem_of_fmap.
    { rewrite <- (pieces_tokens text 0). by apply list_elem_of_fmap_2. }
    by apply group_word, finditer_sound.
Qed.
End pieces_facts.

(** ** The highlighter, loop by loop *)

Section highlighter_facts.
Context `{UnicodeData}.

Lemma emit_mark (error_words : list str) (word : str) :
  emit (error_words_lower_of error_words) word = mark error_words word.
Proof.
  unfold emit, mark, flagged, error_words_lower_of.
  destruct (decide (Exists _ _)) as [Hex|Hex].
  - rewrite bool_decide_eq_true_2; [done|].
    apply Exists_exists in Hex as (w & Hw & ->).
    apply elem_of_list_to_set, list_elem_of_fmap_2. done.
  - rewrite bool_decide_eq_false_2; [done|].
    intros (w & Hw & Hin)%elem_of_list_to_set%list_elem_of_fmap.
    apply Hex, Exists_exists. eauto.
Qed.

Lemma highlight_loop (text : str) (F : gset str) (ms : list Match) :
  ∀ (parts : list str) (cur : nat),
  foldl (highlight_step text F) (parts, cur) ms
  = (parts ++ lay (emit F) (pieces text cur ms), last_pos cur ms).
Proof.
  induction ms as [|m ms IH]; intros parts cur; simpl.
  - by rewrite app_nil_r.
  - rewrite IH. by rewrite <- !(assoc (++)).
Qed.

Lemma formatted_parts_lay (text : str) (error_words : list str) :
  formatted_parts_of text error_words
  = lay (mark error_words) (pieces text 0 (finditer text))
      ++ [drop (last_pos 0 (finditer text)) text].
Proof.
  unfold formatted_parts_of. rewrite highlight_loop. simpl. f_equal.
  induction (pieces text 0 (finditer text)) as [|p ps IH]; simpl; [done|].
  by rewrite emit_mark, IH.
Qed.

Lemma concat_lay (f : str → str) (ps : list (str * str)) (rest : str) :
  concat (lay f ps ++ [rest]) = assemble f ps rest.
Proof.
  unfold assemble. induction ps as [|p ps IH]; simpl.
  - by rewrite app_nil_r.
  - rewrite IH. by rewrite <- !(assoc (++)).
Qed.

Lemma format_assemble (text : str) (error_words : list str) :
  format_text_with_highlights text error_words
  = assemble (mark error_words) (pieces text 0 (finditer text))
      (drop (last_pos 0 (finditer text)) text).
Proof.
  unfold format_text_with_highlights.
  by rewrite formatted_parts_lay, concat_lay.
Qed.

Lemma lay_lookup_token (f : str → str) (ps : list (str * str)) (rest : list str) :
  ∀ (i : nat) (p : str * str),
  ps !! i = Some p → (lay f ps ++ rest) !! (2 * i + 1) = Some (f p.2).
Proof.
  induction ps as [|q ps IH]; intros i p Hi; [done|].
  destruct i as [|i]; simpl in *.
  - by injection Hi as ->.
  - replace (i + S (i + 0) + 1) with (S (2 * i + 1)) by lia. simpl.
    by apply IH.
Qed.

Lemma pieces_lookup (text : str) (ms : list Match) : ∀ (cur i : nat) (m : Match),
  ms !! i = Some m → ∃ g, pieces text cur ms !! i = Some (g, group text m).
Proof.
  induction ms as [|m' ms IH]; intros cur i m Hi; [done|].
  destruct i as [|i]; simpl in *.
  - injection Hi as ->. eauto.
  - by apply IH.
Qed.
End highlighter_facts.

(** ** Counters *)

Lemma filter_id (P : str → Prop) `{!∀ x, Decision (P x)} (l : list str) :
  (∀ x, P x) → filter P l = l.
Proof.
  intros HP. induction l as [|x l IH]; [done|].
  by rewrite filter_cons_True, IH.
Qed.

Lemma elem_of_first_seen (l : list str) (x : str) : x ∈ first_seen l ↔ x ∈ l.
Proof.
  induction l as [|y l IH]; simpl; [done|].
  rewrite !elem_of_cons, list_elem_of_filter, IH.
  destruct (decide (x = y)); intuition congruence.
Qed.

Lemma NoDup_first_seen (l : list str) : NoDup (first_seen l).
Proof.
  induction l as [|y l IH]; simpl; [constructor|].
  apply NoDup_cons. split; [|by apply NoDup_filter].
  rewrite list_elem_of_filter. tauto.
Qed.

(** The elements first seen in a prefix come first, in their order. *)
Lemma first_seen_app (l1 l2 : list str) :
  first_seen (l1 ++ l2)
  = first_seen l1 ++ filter (λ y, y ∉ l1) (first_seen l2).
Proof.
  induction l1 as [|x l1 IH]; simpl.
  - symmetry. apply filter_id. intros y. apply not_elem_of_nil.
  - f_equal. rewrite IH, filter_app. f_equal.
    rewrite list_filter_filter. apply list_filter_iff.
    intros y. rewrite elem_of_cons. tauto.
Qed.

(** If [a] occurs before the first occurrence of [b], it comes before [b]
    among the distinct elements. *)
Lemma first_seen_order (l1 l2 : list str) (a b : str) :
  a ∈ l1 → b ∉ l1 → b ∈ l2 →
  ∃ k1 k2 k3, first_seen (l1 ++ l2) = k1 ++ a :: k2 ++ b :: k3.
Proof.
  intros Ha Hb Hb2. rewrite first_seen_app.
  apply elem_of_first_seen, list_elem_of_split in Ha as (k1 & k2 & ->).
  assert (b ∈ filter (λ y, y ∉ l1) (first_seen l2)) as (k2' & k3 & ->)%list_elem_of_split.
  { apply list_elem_of_filter. split; [done|]. by apply elem_of_first_seen. }
  exists k1, (k2 ++ k2'), k3. by rewrite <- !(assoc (++)).
Qed.

Lemma first_seen_filter (P : str → Prop) `{!∀ x, Decision (P x)} (l : list str) :
  first_seen (filter P l) = filter P (first_seen l).
Proof.
  induction l as [|x l IH]; simpl; [done|].
  destruct (decide (P x)) as [HP|HP].
  - rewrite filter_cons_True by done. simpl. rewrite filter_cons_True by done.
    f_equal. rewrite IH, !list_filter_filter. apply list_filter_iff. tauto.
  - rewrite filter_cons_False by done. rewrite filter_cons_False by done.
    rewrite IH. rewrite list_filter_filter. apply list_filter_iff.
    intros y. split; [|by intros []]. intros Hy. split; [done|].
    intros Hyx. by rewrite Hyx in Hy.
Qed.

Lemma keys_incr (k : str) (c : Counter) :
  keys (incr k c) = if decide (k ∈ keys c) then keys c else keys c ++ [k].
Proof.
  unfold keys. induction c as [|[k' n] c IH].
  - by rewrite decide_False by apply not_elem_of_nil.
  - cbn [incr]. destruct (decide (k = k')) as [->|Hne].
    + rewrite !fmap_cons. cbn [fst]. rewrite decide_True; [done|].
      apply elem_of_cons. by left.
    + rewrite !fmap_cons, IH. cbn [fst]. destruct (decide (k ∈ c.*1)).
      * rewrite decide_True; [done|]. apply elem_of_cons. by right.
      * rewrite decide_False; [done|]. rewrite elem_of_cons. by intros [|].
Qed.

Lemma count_incr (k k' : str) (c : Counter) :
  count (incr k c) k' = if decide (k' = k) then S (count c k') else count c k'.
Proof.
  induction c as [|[k0 n] c IH]; simpl.
  - repeat case_decide; done.
  - destruct (decide (k = k0)) as [->|Hne]; simpl.
    + repeat case_decide; congruence.
    + rewrite IH. repeat case_decide; congruence.
Qed.

Lemma keys_foldl_incr (l : list str) : ∀ c : Counter,
  keys (foldl (λ c k, incr k c) c l)
  = keys c ++ filter (λ w, w ∉ keys c) (first_seen l).
Proof.
  induction l as [|x l IH]; intros c; simpl.
  - by rewrite app_nil_r.
  - rewrite IH, keys_incr. destruct (decide (x ∈ keys c)) as [Hx|Hx].
    + rewrite filter_cons_False by tauto. f_equal.
      rewrite list_filter_filter. apply list_filter_iff.
      intros y. split; [|tauto]. intros Hy. split; [done|].
      intros Hyx. by rewrite Hyx in Hy.
    + rewrite filter_cons_True by done. rewrite <- (assoc (++)). simpl.
      do 2 f_equal. rewrite list_filter_filter. apply list_filter_iff.
      intros y. rewrite elem_of_app, list_elem_of_singleton. tauto.
Qed.

Lemma count_foldl_incr (l : list str) (k : str) : ∀ c : Counter,
  count (foldl (λ c k, incr k c) c l) k = count c k + occurrences k l.
Proof.
  unfold occurrences. induction l as [|x l IH]; intros c; [simpl; lia|].
  cbn [foldl]. rewrite IH, count_incr, filter_cons.
  repeat case_decide; simplify_eq; simpl; lia.
Qed.

Lemma keys_counter_of (l : list str) : keys (counter_of l) = first_seen l.
Proof.
  unfold counter_of. rewrite keys_foldl_incr. simpl.
  apply filter_id. intros y. apply not_elem_of_nil.
Qed.

Lemma count_counter_of (l : list str) (k : str) :
  count (counter_of l) k = occurrences k l.
Proof. unfold counter_of. by rewrite count_foldl_incr. Qed.

Lemma occurrences_pos (l : list str) (k : str) : k ∈ l ↔ 1 ≤ occurrences k l.
Proof.
  unfold occurrences. induction l as [|x l IH].
  - rewrite elem_of_nil. simpl. lia.
  - rewrite elem_of_cons, IH, filter_cons. case_decide; simpl.
    + split; [lia|]. intros _. by left.
    + split; [by intros [|]|]. by right.
Qed.

(** An entry of a counter with distinct keys is the count of its key. *)
Lemma count_entry (c : Counter) (k : str) (n : nat) :
  NoDup (keys c) → (k, n) ∈ c → count c k = n.
Proof.
  unfold keys. induction c as [|[k' n'] c IH]; intros Hnd Hin.
  - by apply elem_of_nil in Hin.
  - simpl in *. apply NoDup_cons in Hnd as [Hk' Hnd].
    apply elem_of_cons in Hin as [[= -> ->]|Hin].
    + by rewrite decide_True.
    + rewrite decide_False; [by apply IH|]. intros ->.
      apply Hk'. by apply (list_elem_of_fmap_2 fst) in Hin.
Qed.

Lemma counter_of_entry (l : list str) (k : str) (n : nat) :
  (k, n) ∈ counter_of l → k ∈ l ∧ n = occurrences k l.
Proof.
  intros Hin. split.
  - apply elem_of_first_seen. rewrite <- keys_counter_of.
    by apply (list_elem_of_fmap_2 fst) in Hin.
  - rewrite <- count_counter_of. symmetry. apply count_entry; [|done].
    rewrite keys_counter_of. apply NoDup_first_seen.
Qed.

Lemma counter_of_nil (l : list str) : counter_of l = [] ↔ l = [].
Proof.
  split; [|by intros ->]. intros Hc.
  pose proof (keys_counter_of l) as Hk. rewrite Hc in Hk.
  destruct l; [done|]. simpl in Hk. done.
Qed.

(** ** The validator *)

Section validator_facts.
Context `{UnicodeData}.

Lemma elem_of_proper_nouns_of (doc : list Token) (word : str) :
  word ∈ proper_nouns_of doc ↔
  ∃ token, token ∈ doc ∧ pos_ token = "PROPN" ∧ str_lower (text_ token) = word.
Proof.
  unfold proper_nouns_of. rewrite elem_of_list_to_set, list_elem_of_fmap.
  split.
  - intros (token & -> & [? ?]%list_elem_of_filter). eauto.
  - intros (token & ? & ? & <-). exists token. split; [done|].
    by apply list_elem_of_filter.
Qed.

Lemma elem_of_numbers_of (doc : list Token) (word : str) :
  word ∈ numbers_of doc ↔
  ∃ token, token ∈ doc ∧ like_num token = true ∧ str_lower (text_ token) = word.
Proof.
  unfold numbers_of. rewrite elem_of_list_to_set, list_elem_of_fmap.
  split.
  - intros (token & -> & [? ?]%list_elem_of_filter). eauto.
  - intros (token & ? & ? & <-). exists token. split; [done|].
    by apply list_elem_of_filter.
Qed.

Lemma elem_of_non_compliant_words (self : SpanishValidator) (text : str)
    (vocabulary : gset str) (word : str) :
  word ∈ non_compliant_words_of self text vocabulary ↔
  word ∈ findall (str_lower text) ∧ non_compliant self text vocabulary word.
Proof.
  unfold non_compliant_words_of, non_compliant.
  rewrite list_elem_of_filter, elem_of_proper_nouns_of, elem_of_numbers_of.
  tauto.
Qed.

Lemma keys_errors (self : SpanishValidator) (text : str)
    (vocabulary : gset str) :
  keys (errors (validate_text self text vocabulary))
  = first_seen (non_compliant_words_of self text vocabulary).
Proof. apply keys_counter_of. Qed.

Lemma elem_of_keys_errors (self : SpanishValidator) (text : str)
    (vocabulary : gset str) (word : str) :
  word ∈ keys (errors (validate_text self text vocabulary)) ↔
  word ∈ findall (str_lower text) ∧ non_compliant self text vocabulary word.
Proof.
  rewrite keys_errors, elem_of_first_seen. apply elem_of_non_compliant_words.
Qed.

Lemma occurrences_filter (P : str → Prop) `{!∀ x, Decision (P x)}
    (l : list str) (k : str) :
  P k → occurrences k (filter P l) = occurrences k l.
Proof.
  intros HP. unfold occurrences. rewrite list_filter_filter. f_equal.
  apply list_filter_iff. intros w. split; [by intros []|]. by intros ->.
Qed.
End validator_facts.

(** ** The page script *)

Section page_facts.
Context `{UnicodeData}.

Lemma lstrip_spaces (s : str) : forallb isspace s = true → lstrip s = [].
Proof.
  induction s as [|c s IH]; simpl; [done|].
  intros [Hc Hs]%andb_true_iff. rewrite Hc. by apply IH.
Qed.

Lemma lstrip_nil (s : str) : lstrip s = [] → forallb isspace s = true.
Proof.
  induction s as [|c s IH]; simpl; [done|].
  destruct (isspace c); [done|]. intros [=].
Qed.

Lemma lstrip_head (s : str) (c : char) (s' : str) :
  lstrip s = c :: s' → isspace c = false.
Proof.
  induction s as [|d s IH]; simpl; [done|].
  destruct (isspace d) eqn:Hd; [done|]. by intros [= <- _].
Qed.

(** [strip] leaves nothing exactly of the strings of white space. *)
Lemma strip_nil (s : str) : strip s = [] ↔ forallb isspace s = true.
Proof.
  unfold strip. split.
  - intros Hs. apply lstrip_nil.
    assert (lstrip (reverse (lstrip s)) = []) as Hr%lstrip_nil.
    { apply (f_equal length) in Hs. rewrite length_reverse in Hs.
      by apply nil_length_inv. }
    destruct (lstrip s) as [|c s'] eqn:Hl; [done|].
    apply lstrip_head in Hl.
    rewrite forallb_forall in Hr. rewrite (Hr c) in Hl; [done|].
    apply list_elem_of_In, elem_of_reverse, elem_of_cons. by left.
  - intros Hs. by rewrite (lstrip_spaces s Hs).
Qed.
End page_facts.

(** ** Lowercasing character by character

    Where [str.lower] maps each character on its own and keeps the word
    characters apart from the others, the tokens of the lowercased text are
    the lowercased tokens of the text, and a count of the errors is the
    number of tokens of the text with that lowercase form. *)
Section charwise.
Context `{UnicodeData} (lc : char → char).
Hypothesis lower_charwise : ∀ s, str_lower s = lc <$> s.
Hypothesis lower_word : ∀ c, is_word (lc c) = is_word c.

Lemma scan_fmap (rest : str) : ∀ (pos : nat) (run : option nat),
  scan pos run (lc <$> rest) = scan pos run rest.
Proof.
  induction rest as [|c rest IH]; intros pos run; [done|].
  rewrite fmap_cons. cbn [scan]. by rewrite lower_word, !IH.
Qed.

Lemma findall_lower (text : str) :
  findall (str_lower text) = str_lower <$> findall text.
Proof.
  unfold findall, finditer. rewrite lower_charwise, scan_fmap.
  rewrite <- list_fmap_compose. apply list_fmap_ext. intros _ m _. simpl.
  unfold group. by rewrite slice_fmap, lower_charwise.
Qed.

Lemma errors_count_case_variants (self : SpanishValidator) (text : str)
    (vocabulary : gset str) (k : str) :
  k ∈ keys (errors (validate_text self text vocabulary)) →
  count (errors (validate_text self text vocabulary)) k
  = length (filter (λ token, str_lower token = k) (findall text)).
Proof.
  intros Hk. unfold validate_text. cbn [errors]. rewrite count_counter_of.
  rewrite keys_errors, elem_of_first_seen in Hk.
  apply list_elem_of_filter in Hk as [Hk _].
  unfold non_compliant_words_of.
  rewrite (occurrences_filter _ _ _ Hk). unfold occurrences.
  rewrite findall_lower. generalize (findall text). intros l.
  induction l as [|t l IH]; [done|].
  rewrite fmap_cons, !filter_cons. case_decide; simpl; by rewrite IH.
Qed.
End charwise.

Lemma latin1_lower_word (c : char) :
  @is_word Latin1.table (Latin1.lower_char c) = @is_word Latin1.table c.
Proof.
  destruct (decide (c < 256)%N) as [Hc|Hc].
  - assert (Hall : forallb (λ n, bool_decide
        (@is_word Latin1.table (Latin1.lower_char (N.of_nat n))
         = @is_word Latin1.table (N.of_nat n))) (seq 0 256) = true)
      by (vm_compute; reflexivity).
    rewrite forallb_forall in Hall. specialize (Hall (N.to_nat c)).
    rewrite N2Nat.id in Hall. eapply bool_decide_eq_true_1, Hall, in_seq. lia.
  - unfold Latin1.lower_char, Latin1.in_range.
    replace (c <=? 90)%N with false by (symmetry; apply N.leb_gt; lia).
    replace (c <=? 214)%N with false by (symmetry; apply N.leb_gt; lia).
    replace (c <=? 222)%N with false by (symmetry; apply N.leb_gt; lia).
    by rewrite !andb_false_r.
Qed.

(** * The claims *)

Section claims.
Context `{UnicodeData}.
Implicit Types (self : SpanishValidator) (text word : str).
Implicit Types (vocabulary : gset str) (error_words : list str).

(** C1. A token of the lowercased text is a key of the returned errors
    exactly when it is non-compliant: not in the vocabulary, not the
    lowercased text of a tagger token classified as a proper noun, and not
    the lowercased text of a tagger token flagged numeral-like. *)
Theorem errors_exactly_non_compliant self text vocabulary word :
  word ∈ keys (errors (validate_text self text vocabulary)) ↔
  word ∈ findall (str_lower text) ∧
  (word ∉ vocabulary) ∧
  (¬ ∃ token, token ∈ nlp self text ∧ pos_ token = "PROPN" ∧
              str_lower (text_ token) = word) ∧
  (¬ ∃ token, token ∈ nlp self text ∧ like_num token = true ∧
              str_lower (text_ token) = word).
Proof. apply elem_of_keys_errors. Qed.

(** C2. The result is compliant exactly when its errors are empty. *)
Theorem compliant_iff_no_errors self text vocabulary :
  compliant (validate_text self text vocabulary) = true ↔
  errors (validate_text self text vocabulary) = [].
Proof.
  simpl. rewrite bool_decide_eq_true, counter_of_nil.
  split; [apply nil_length_inv|by intros ->].
Qed.

(** A key of the errors is never in the vocabulary. *)
Lemma vocabulary_not_in_errors self text vocabulary word :
  word ∈ vocabulary →
  word ∉ keys (errors (validate_text self text vocabulary)).
Proof. intros HV (_ & HnV & _)%elem_of_keys_errors. done. Qed.


(** The same for the vocabulary as the page loads it: a word that a line
    of the uploaded file holds in any case is never a key of the errors. *)
Lemma listed_word_not_in_errors self text (lines : list str) (line : str) word :
  line ∈ lines → strip line ≠ [] →
  str_lower word = str_lower (strip line) →
  str_lower word ∉ keys (errors (validate_text self text (load_vocabulary lines))).
Proof.
  intros Hline Hne Heq. apply vocabulary_not_in_errors.
  unfold load_vocabulary. rewrite elem_of_list_to_set, list_elem_of_fmap.
  exists line. split; [done|]. by apply list_elem_of_filter.
Qed.

(** C9. Every entry of the errors counts at least 1, and its key is a
    token of the lowercased text. *)
Theorem errors_entries_positive self text vocabulary (k : str) (n : nat) :
  (k, n) ∈ errors (validate_text self text vocabulary) →
  1 ≤ n ∧ k ∈ findall (str_lower text).
Proof.
  intros [Hk ->]%counter_of_entry. split.
  - by apply occurrences_pos.
  - by apply elem_of_non_compliant_words in Hk as [? _].
Qed.

(** C7. The keys of the errors are tokens of the lowercased text, listed
    in the order in which the non-compliant ones first occur there, each
    once.  The count of a key is the number of tokens of the lowercased
    text equal to it: the text is lowercased before it is cut, so the
    repetitions and the case variants of a word fall under the one key.
    Where lowercasing works character by character, that is the number of
    tokens of the text itself whose lowercase form is the key. *)
Theorem errors_counts_first_seen self text vocabulary :
  let result := validate_text self text vocabulary in
  let doc := nlp self text in
  let words := findall (str_lower text) in
  keys (errors result)
  = filter (λ word, (word ∉ vocabulary) ∧ (word ∉ proper_nouns_of doc) ∧
                    (word ∉ numbers_of doc)) (first_seen words) ∧
  NoDup (keys (errors result)) ∧
  (∀ k n, (k, n) ∈ errors result → n = occurrences k words) ∧
  (∀ k, k ∈ keys (errors result) → count (errors result) k = occurrences k words) ∧
  (∀ lc : char → char,
     (∀ s, str_lower s = lc <$> s) → (∀ c, is_word (lc c) = is_word c) →
     ∀ k, k ∈ keys (errors result) →
          count (errors result) k
          = length (filter (λ token, str_lower token = k) (findall text))).
Proof.
  intros result doc words. split_and!;
    [| | | |intros lc Hlc Hw k; by apply (errors_count_case_variants lc)].
  - unfold result. rewrite keys_errors. apply first_seen_filter.
  - unfold result. rewrite keys_errors. apply NoDup_first_seen.
  - intros k n [Hk ->]%counter_of_entry.
    apply list_elem_of_filter in Hk as [Hk _]. by apply occurrences_filter.
  - intros k Hk. unfold result in *. simpl. rewrite count_counter_of.
    rewrite keys_errors, elem_of_first_seen in Hk.
    apply list_elem_of_filter in Hk as [Hk _]. by apply occurrences_filter.
Qed.

(** C4, as amended.  A purely numeric token of the text is not a key of
    the errors when the tagger reports a numeral-like token whose
    lowercased text is that token. *)
Theorem numeric_token_exempt_when_tagged self text vocabulary word :
  word ∈ findall text → forallb is_digit word = true →
  (∃ token, token ∈ nlp self text ∧ like_num token = true ∧
            str_lower (text_ token) = word) →
  word ∉ keys (errors (validate_text self text vocabulary)).
Proof.
  intros _ _ Hnum (_ & _ & _ & Hnot)%elem_of_keys_errors. by apply Hnot.
Qed.
End claims.

Section highlighter_claims.
Context `{UnicodeData}.
Implicit Types (text word : str) (error_words : list str).

(** C5. The text is a sequence of gaps and tokens: the tokens are those
    of the pattern, in order, and the gaps and the rest hold no word
    character.  The highlighted text is the same sequence with markup
    around exactly the tokens that equal an error word once both are
    lowercased; gaps, rest and the other tokens are copied, so that with
    the markup taken away again the sequence is the text. *)
Theorem highlight_wraps_flagged_tokens text error_words :
  ∃ (ps : list (str * str)) (rest : str),
    text = assemble id ps rest ∧
    format_text_with_highlights text error_words
    = assemble (λ word, if decide (flagged error_words word)
                        then span_open ++ word ++ span_close else word)
        ps rest ∧
    ps.*2 = findall text ∧
    Forall (λ p, forallb nonword p.1 = true ∧
                 p.2 ≠ [] ∧ forallb is_word p.2 = true) ps ∧
    forallb nonword rest = true.
Proof.
  exists (pieces text 0 (finditer text)),
         (drop (last_pos 0 (finditer text)) text).
  destruct (finditer_pieces text) as (Htext & Hps & Hrest).
  split_and!; [done|apply format_assemble|apply pieces_tokens|done|done].
Qed.

(** C6. With no error words the text comes back unchanged. *)
Theorem highlight_nothing text : format_text_with_highlights text [] = text.
Proof.
  rewrite format_assemble.
  destruct (finditer_pieces text) as (Htext & _).
  etrans; [|exact (eq_sym Htext)].
  unfold assemble.
  rewrite (list_fmap_ext (λ p, p.1 ++ mark [] p.2) (λ p, p.1 ++ id p.2)); [done|].
  intros _ p _. unfold mark, flagged.
  rewrite decide_False; [done|]. by intros ?%Exists_nil.
Qed.

(** C10. The part the loop appends for a flagged match is the markup
    around the substring of the text at the span of the match, in the
    case the text has it; only the test of the word is on its lowercase
    form. *)
Theorem highlight_keeps_surface_form text error_words (i : nat) (m : Match) :
  finditer text !! i = Some m →
  (∃ w, w ∈ error_words ∧ str_lower (group text m) = str_lower w) →
  formatted_parts_of text error_words !! (2 * i + 1)
  = Some (span_open ++ slice text (start m) (end_ m) ++ span_close).
Proof.
  intros Hm Hflag. rewrite formatted_parts_lay.
  destruct (pieces_lookup text _ 0 i m Hm) as [g Hp].
  rewrite (lay_lookup_token _ _ _ _ _ Hp). simpl. unfold mark.
  rewrite decide_True; [done|]. apply Exists_exists.
  destruct Hflag as (w & ? & ?). eauto.
Qed.
End highlighter_claims.

Section page_claims.
Context `{UnicodeData}.

(** C8. When the button is pressed with an empty vocabulary, or with a
    text that is empty or white space only, the run shows what a run
    without the button shows, then one warning: the validator is not
    called and no result is shown. *)
Theorem guards_skip_validation (validator : SpanishValidator)
    (uploaded_file : option (list str)) (text_input : str) :
  vocabulary_of uploaded_file = ∅ ∨ forallb isspace text_input = true →
  (∃ msg, main validator uploaded_file text_input true
          = main validator uploaded_file text_input false ++ [st_warning msg]) ∧
  Forall (λ e, is_result e = false)
         (main validator uploaded_file text_input true).
Proof.
  intros Hguard.
  assert (∃ msg, on_validate validator (vocabulary_of uploaded_file) text_input
                 = [st_warning msg]) as [msg Hon].
  { unfold on_validate. destruct (decide (vocabulary_of uploaded_file = ∅)); [eauto|].
    destruct Hguard as [?|Hsp%strip_nil]; [done|].
    rewrite decide_True by done. eauto. }
  unfold main. rewrite Hon, app_nil_r. split.
  - exists msg. by rewrite <- !(assoc (++)).
  - destruct uploaded_file; repeat constructor.
Qed.
End page_claims.

(** * Further properties *)

(** ** Counters: totals and filtering *)

Lemma sum_incr (k : str) (c : Counter) :
  sum_list (incr k c).*2 = S (sum_list c.*2).
Proof.
  induction c as [|[k' n] c IH]; [done|].
  cbn [incr]. destruct (decide (k = k')); rewrite !fmap_cons; cbn [snd].
  - done.
  - change (n + sum_list (incr k c).*2 = S (n + sum_list c.*2)). rewrite IH. lia.
Qed.

Lemma sum_foldl_incr (l : list str) : ∀ c : Counter,
  sum_list (foldl (λ c k, incr k c) c l).*2 = sum_list c.*2 + length l.
Proof.
  induction l as [|x l IH]; intros c; simpl; [lia|].
  rewrite IH, sum_incr. lia.
Qed.

Lemma sum_counter_of (l : list str) : sum_list (counter_of l).*2 = length l.
Proof. unfold counter_of. by rewrite sum_foldl_incr. Qed.

Lemma incr_filter_keep (P : str → Prop) `{!∀ x, Decision (P x)}
    (k : str) (c : Counter) :
  P k → incr k (filter (λ e, P e.1) c) = filter (λ e, P e.1) (incr k c).
Proof.
  intros HP. induction c as [|[k' n] c IH].
  - cbn [incr]. by rewrite filter_nil, filter_cons_True.
  - cbn [incr]. destruct (decide (k = k')) as [<-|Hne].
    + rewrite !filter_cons_True by done. cbn [incr]. by rewrite decide_True.
    + rewrite !filter_cons. cbn [fst]. destruct (decide (P k')).
      * cbn [incr]. by rewrite decide_False, IH.
      * done.
Qed.

Lemma incr_filter_drop (P : str → Prop) `{!∀ x, Decision (P x)}
    (k : str) (c : Counter) :
  ¬ P k → filter (λ e, P e.1) (incr k c) = filter (λ e, P e.1) c.
Proof.
  intros HP. induction c as [|[k' n] c IH].
  - cbn [incr]. by rewrite filter_cons_False.
  - cbn [incr]. destruct (decide (k = k')) as [<-|Hne].
    + by rewrite !filter_cons_False.
    + rewrite !filter_cons. cbn [fst]. by rewrite IH.
Qed.

Lemma foldl_incr_filter (P : str → Prop) `{!∀ x, Decision (P x)}
    (l : list str) : ∀ c : Counter,
  foldl (λ c k, incr k c) (filter (λ e, P e.1) c) (filter P l)
  = filter (λ e, P e.1) (foldl (λ c k, incr k c) c l).
Proof.
  induction l as [|x l IH]; intros c; [done|].
  rewrite filter_cons. cbn [foldl]. destruct (decide (P x)).
  - cbn [foldl]. by rewrite incr_filter_keep, IH.
  - by rewrite <- IH, incr_filter_drop.
Qed.

Lemma counter_of_filter (P : str → Prop) `{!∀ x, Decision (P x)}
    (l : list str) :
  counter_of (filter P l) = filter (λ e, P e.1) (counter_of l).
Proof. unfold counter_of. by rewrite <- foldl_incr_filter. Qed.



(** ** The validator, beyond the claims *)

Section validator_more.
Context `{UnicodeData}.
Implicit Types (self : SpanishValidator) (text word : str).
Implicit Types (vocabulary : gset str).

Lemma scan_nonword (rest : str) : ∀ pos : nat,
  forallb nonword rest = true → scan pos None rest = [].
Proof.
  induction rest as [|c rest IH]; intros pos Hall; [done|].
  simpl in Hall. apply andb_true_iff in Hall as [Hc Hall].
  unfold nonword in Hc. apply negb_true_iff in Hc.
  cbn [scan]. rewrite Hc. by apply IH.
Qed.

Lemma non_compliant_words_union self text vocabulary (more : gset str) :
  non_compliant_words_of self text (vocabulary ∪ more)
  = filter (λ word, word ∉ more) (non_compliant_words_of self text vocabulary).
Proof.
  unfold non_compliant_words_of. rewrite list_filter_filter.
  apply list_filter_iff. intros word. rewrite not_elem_of_union. tauto.
Qed.

(** X1. The result is compliant exactly when every token of the
    lowercased text is in the vocabulary, or is the lowercased text of a
    token tagged as a proper noun, or of a token flagged numeral-like. *)
Theorem compliant_iff_all_exempt self text vocabulary :
  compliant (validate_text self text vocabulary) = true ↔
  ∀ word, word ∈ findall (str_lower text) →
    word ∈ vocabulary ∨
    (∃ token, token ∈ nlp self text ∧ pos_ token = "PROPN" ∧
              str_lower (text_ token) = word) ∨
    (∃ token, token ∈ nlp self text ∧ like_num token = true ∧
              str_lower (text_ token) = word).
Proof.
  cbn [compliant validate_text]. rewrite bool_decide_eq_true. split.
  - intros Hnil%nil_length_inv word Hword.
    destruct (decide (word ∈ vocabulary)) as [|HV]; [by left|].
    destruct (decide (word ∈ proper_nouns_of (nlp self text))) as [HP|HP];
      [right; left; by apply elem_of_proper_nouns_of|].
    destruct (decide (word ∈ numbers_of (nlp self text))) as [HN|HN];
      [right; right; by apply elem_of_numbers_of|].
    exfalso. apply (not_elem_of_nil word). rewrite <- Hnil.
    apply elem_of_non_compliant_words. split; [done|].
    unfold non_compliant.
    rewrite <- elem_of_proper_nouns_of, <- elem_of_numbers_of. done.
  - intros Hall.
    destruct (non_compliant_words_of self text vocabulary) as [|word l] eqn:Hl;
      [done|]. exfalso.
    assert (word ∈ non_compliant_words_of self text vocabulary)
      as [Hword (HV & HP & HN)]%elem_of_non_compliant_words
      by (rewrite Hl; apply elem_of_cons; by left).
    destruct (Hall word Hword) as [?|[?|?]]; done.
Qed.

(** X2. The counts of the errors add up to the number of non-compliant
    tokens of the lowercased text, repetitions included; so they never
    exceed the number of tokens. *)
Theorem errors_total self text vocabulary :
  let doc := nlp self text in
  let words := findall (str_lower text) in
  sum_list (errors (validate_text self text vocabulary)).*2
  = length (filter (λ word, (word ∉ vocabulary) ∧
                            (word ∉ proper_nouns_of doc) ∧
                            (word ∉ numbers_of doc)) words) ∧
  sum_list (errors (validate_text self text vocabulary)).*2 ≤ length words.
Proof.
  intros doc words. cbn [errors validate_text]. rewrite sum_counter_of.
  split; [done|]. apply length_filter.
Qed.

(** X3. Words added to the vocabulary take their own entries out of the
    errors and change nothing else: the other entries keep their counts
    and their order. *)
Theorem errors_vocabulary_union self text vocabulary (more : gset str) :
  errors (validate_text self text (vocabulary ∪ more))
  = filter (λ entry, entry.1 ∉ more)
           (errors (validate_text self text vocabulary)).
Proof.
  cbn [errors validate_text].
  by rewrite non_compliant_words_union, counter_of_filter.
Qed.

(** X4. The lowercased text of a token that the tagger classifies as a
    proper noun is never a key of the errors, wherever else and in
    whatever case the word occurs in the text. *)
Theorem proper_noun_not_in_errors self text vocabulary (token : Token) :
  token ∈ nlp self text → pos_ token = "PROPN" →
  str_lower (text_ token) ∉ keys (errors (validate_text self text vocabulary)).
Proof.
  intros Htoken Hpos (_ & _ & Hnot & _)%elem_of_keys_errors.
  apply Hnot. eauto.
Qed.

(** X5. A text whose lowercase form has no word character (white space
    and punctuation only, or nothing at all) is compliant with empty
    errors, whatever the vocabulary and the tagger. *)
Theorem no_word_text_compliant self text vocabulary :
  forallb nonword (str_lower text) = true →
  validate_text self text vocabulary = {| compliant := true; errors := [] |}.
Proof.
  intros Hnon.
  assert (non_compliant_words_of self text vocabulary = []) as Hnil.
  { unfold non_compliant_words_of, findall, finditer.
    by rewrite scan_nonword. }
  unfold validate_text. by rewrite Hnil.
Qed.
End validator_more.

(** ** The tokens and the highlighter, beyond the claims *)

Section highlighter_more.
Context `{UnicodeData}.
Implicit Types (text word : str) (error_words : list str).

Lemma span_overhead : length span_open + length span_close = 32.
Proof. reflexivity. Qed.

Lemma length_assemble_mark error_words (ps : list (str * str)) (rest : str) :
  length (assemble (mark error_words) ps rest)
  = length (assemble id ps rest)
    + 32 * length (filter (flagged error_words) ps.*2).
Proof.
  unfold assemble. rewrite !length_app.
  enough (length (concat ((λ p, p.1 ++ mark error_words p.2) <$> ps))
          = length (concat ((λ p, p.1 ++ id p.2) <$> ps))
            + 32 * length (filter (flagged error_words) ps.*2)) by lia.
  induction ps as [|p ps IH]; [done|].
  rewrite !fmap_cons, filter_cons. cbn [concat]. rewrite !length_app, IH.
  unfold mark, id. destruct (decide (flagged error_words p.2)).
  - unfold span. rewrite !length_app. pose proof span_overhead. simpl length. lia.
  - lia.
Qed.

Lemma length_format text error_words :
  length (format_text_with_highlights text error_words)
  = length text + 32 * length (filter (flagged error_words) (findall text)).
Proof.
  rewrite format_assemble, length_assemble_mark, pieces_tokens.
  destruct (finditer_pieces text) as (Htext & _). by rewrite <- Htext.
Qed.

Lemma format_unflagged text error_words :
  (∀ word, word ∈ findall text → ¬ flagged error_words word) →
  format_text_with_highlights text error_words = text.
Proof.
  intros Hnone. rewrite format_assemble.
  destruct (finditer_pieces text) as (Htext & _).
  etrans; [|exact (eq_sym Htext)]. unfold assemble.
  rewrite (list_fmap_ext (λ p, p.1 ++ mark error_words p.2)
                         (λ p, p.1 ++ id p.2)); [done|].
  intros i p Hp. unfold mark. rewrite decide_False; [done|].
  apply Hnone. unfold findall. rewrite <- (pieces_tokens text 0).
  apply list_elem_of_fmap_2. by apply list_elem_of_lookup_2 in Hp.
Qed.

(** X6. A token of the text is found exactly where a maximal run of word
    characters lies: word characters from [s] up to [e], none just before
    [s] and none at [e]. *)
Theorem tokens_are_maximal_word_runs text (s e : nat) :
  {| start := s; end_ := e |} ∈ finditer text ↔
  s < e ≤ length text ∧
  (∀ i, s ≤ i < e → word_at text i = true) ∧
  (s = 0 ∨ word_at text (s - 1) = false) ∧
  word_at text e = false.
Proof.
  rewrite finditer_matches. unfold matches, boundary. split.
  - intros (Hs & Hse & He & Hw & Hb). split_and!; [done|done|done| |].
    + destruct s as [|j]; [by left|right].
      rewrite (Hw (S j)) in Hs by lia. replace (S j - 1) with j by lia.
      by destruct (word_at text j).
    + destruct e as [|j]; [lia|]. rewrite (Hw j) in Hb by lia.
      by destruct (word_at text (S j)).
  - intros ([Hse He] & Hw & Hs & Hb). split_and!; [|done|done|done|].
    + rewrite (Hw s) by lia. destruct s as [|j]; [done|].
      destruct Hs as [|Hs]; [lia|]. replace (S j - 1) with j in Hs by lia.
      by rewrite Hs.
    + destruct e as [|j]; [lia|]. rewrite (Hw j) by lia. by rewrite Hb.
Qed.

(** X7. The highlighted text is longer than the text by the 32 characters
    of the markup for every flagged token, and by nothing else. *)
Theorem highlight_length text error_words :
  length (format_text_with_highlights text error_words)
  = length text + 32 * length (filter (flagged error_words) (findall text)).
Proof. apply length_format. Qed.

(** X8. The highlighter returns the text unchanged exactly when no token
    of the text equals an error word once both are lowercased. *)
Theorem highlight_unchanged_iff text error_words :
  format_text_with_highlights text error_words = text ↔
  ∀ word, word ∈ findall text → ¬ flagged error_words word.
Proof.
  split; [|apply format_unflagged].
  intros Heq%(f_equal length) word Hword Hflag. rewrite length_format in Heq.
  assert (word ∈ filter (flagged error_words) (findall text)) as Hin
    by by apply list_elem_of_filter.
  destruct (filter (flagged error_words) (findall text)); simpl in Heq;
    [by apply elem_of_nil in Hin|lia].
Qed.

(** X9. Only the set of the lowercased error words counts: their order,
    their repetitions and their letter case do not change the output. *)
Theorem highlight_error_words_as_set text (error_words1 error_words2 : list str) :
  (∀ word, word ∈ str_lower <$> error_words1 ↔
           word ∈ str_lower <$> error_words2) →
  format_text_with_highlights text error_words1
  = format_text_with_highlights text error_words2.
Proof.
  intros Hsame.
  assert (error_words_lower_of error_words1
          = error_words_lower_of error_words2) as Heq.
  { apply set_eq. intros word. unfold error_words_lower_of.
    by rewrite !elem_of_list_to_set. }
  unfold format_text_with_highlights, formatted_parts_of. by rewrite Heq.
Qed.
End highlighter_more.

(** ** The page script, beyond the claims *)

Section page_more.
Context `{UnicodeData}.
Implicit Types (validator : SpanishValidator) (text_input : str).
Implicit Types (uploaded_file : option (list str)) (vocabulary : gset str).

Lemma on_validate_passes validator vocabulary text_input :
  vocabulary ≠ ∅ → forallb isspace text_input = false →
  on_validate validator vocabulary text_input
  = let result := validate_text validator text_input vocabulary in
    [call_validate_text text_input vocabulary;
     st_markdown md_results_heading] ++
    (if compliant result then [st_markdown md_compliant]
     else st_markdown md_non_compliant :: (bullet <$> errors result)) ++
    [st_markdown md_highlight_heading;
     st_markdown
       (md_highlighted
          (format_text_with_highlights text_input (keys (errors result))))].
Proof.
  intros HV Htext. unfold on_validate.
  rewrite decide_False by done. rewrite decide_False; [done|].
  intros Hs%strip_nil. congruence.
Qed.

Lemma call_in_on_validate validator vocabulary text_input (t : str) (v : gset str) :
  call_validate_text t v ∈ on_validate validator vocabulary text_input ↔
  vocabulary ≠ ∅ ∧ forallb isspace text_input = false ∧
  t = text_input ∧ v = vocabulary.
Proof.
  destruct (decide (vocabulary = ∅)) as [HV|HV].
  { unfold on_validate. rewrite decide_True by done.
    rewrite list_elem_of_singleton. split; [done|]. by intros []. }
  destruct (forallb isspace text_input) eqn:Htext.
  { unfold on_validate. rewrite decide_False by done.
    rewrite decide_True by by apply strip_nil.
    rewrite list_elem_of_singleton. split; [done|]. by intros (_ & ? & _). }
  rewrite on_validate_passes by done. cbn zeta.
  rewrite !elem_of_app, !elem_of_cons, elem_of_nil. split.
  - intros [[[= -> ->]|[|[]]]|[Hmid|[|[|[]]]]]; try done.
    destruct (compliant _).
    + by apply list_elem_of_singleton in Hmid.
    + apply elem_of_cons in Hmid as [|Hmid]; [done|].
      apply list_elem_of_fmap in Hmid as ([w n] & ? & _). done.
  - intros (_ & _ & -> & ->). left. by left.
Qed.

(** X10. A run calls the validator exactly when the button is pressed,
    the vocabulary is not empty and the text is not white space only; the
    call is on the text of the text area and the loaded vocabulary. *)
Theorem validation_runs_iff_guards_pass validator uploaded_file text_input
    (button : bool) (t : str) (v : gset str) :
  call_validate_text t v ∈ main validator uploaded_file text_input button ↔
  button = true ∧ vocabulary_of uploaded_file ≠ ∅ ∧
  forallb isspace text_input = false ∧
  t = text_input ∧ v = vocabulary_of uploaded_file.
Proof.
  unfold main. rewrite !elem_of_app.
  assert (∀ l : list effect,
            call_validate_text t v ∈ [st_set_page_config; st_markdown md_css; st_title]
            ∨ call_validate_text t v ∈
                match uploaded_file with
                | Some _ => [st_success (size (vocabulary_of uploaded_file))]
                | None => []
                end
            ∨ call_validate_text t v ∈ l ↔ call_validate_text t v ∈ l) as ->.
  { intros l. split; [|by auto].
    intros [Hin|[Hin|Hin]]; [| |done].
    - rewrite !elem_of_cons, elem_of_nil in Hin. by destruct Hin as [|[|[|]]].
    - destruct uploaded_file; [|by apply elem_of_nil in Hin].
      by apply list_elem_of_singleton in Hin. }
  destruct button.
  - rewrite call_in_on_validate. tauto.
  - rewrite elem_of_nil. split; [done|]. by intros [].
Qed.

(** X11. The vocabulary is checked first: with an empty vocabulary the
    warning asks for a vocabulary file, whatever the text; with a
    vocabulary and a text of white space only it asks for a text. *)
Theorem guard_warnings validator uploaded_file text_input :
  (vocabulary_of uploaded_file = ∅ →
   main validator uploaded_file text_input true
   = main validator uploaded_file text_input false
       ++ [st_warning "Please load a vocabulary file first."]) ∧
  (vocabulary_of uploaded_file ≠ ∅ →
   forallb isspace text_input = true →
   main validator uploaded_file text_input true
   = main validator uploaded_file text_input false
       ++ [st_warning "Please enter some text to validate."]).
Proof.
  unfold main, on_validate. split.
  - intros HV. rewrite decide_True by done.
    by rewrite app_nil_r, <- !(assoc (++)).
  - intros HV Htext. rewrite decide_False by done.
    rewrite decide_True by by apply strip_nil.
    by rewrite app_nil_r, <- !(assoc (++)).
Qed.

(** X12. The loaded vocabulary is empty exactly when every line of the
    upload is white space only (an empty upload among them): such an
    upload leaves validation blocked like no upload. *)
Theorem blank_upload_empty_vocabulary (lines : list str) :
  load_vocabulary lines = ∅ ↔
  Forall (λ line, forallb isspace line = true) lines.
Proof.
  unfold load_vocabulary. rewrite elem_of_equiv_empty_L, Forall_forall.
  split.
  - intros Hempty line Hline. apply strip_nil.
    destruct (decide (strip line = [])) as [|Hne]; [done|]. exfalso.
    apply (Hempty (str_lower (strip line))).
    apply elem_of_list_to_set, list_elem_of_fmap. exists line.
    split; [done|]. by apply list_elem_of_filter.
  - intros Hblank word
      (line & _ & [Hne Hline]%list_elem_of_filter)%elem_of_list_to_set%list_elem_of_fmap.
    apply Hne, strip_nil, Hblank, Hline.
Qed.

(** X13. The loaded vocabulary depends on which lines the upload has,
    not on their order or their repetitions. *)
Theorem load_vocabulary_as_set (lines1 lines2 : list str) :
  (∀ line, line ∈ lines1 ↔ line ∈ lines2) →
  load_vocabulary lines1 = load_vocabulary lines2.
Proof.
  intros Hsame. apply set_eq. intros word. unfold load_vocabulary.
  rewrite !elem_of_list_to_set, !list_elem_of_fmap.
  split; intros (line & -> & [Hne Hline]%list_elem_of_filter);
    exists line; (split; [done|]); apply list_elem_of_filter;
    (split; [done|]); by apply Hsame.
Qed.

(** X14. A run that validates a compliant text shows the compliant line
    and then the text of the text area itself, without markup. *)
Theorem compliant_run validator uploaded_file text_input :
  vocabulary_of uploaded_file ≠ ∅ →
  forallb isspace text_input = false →
  compliant (validate_text validator text_input (vocabulary_of uploaded_file))
  = true →
  main validator uploaded_file text_input true
  = main validator uploaded_file text_input false ++
    [call_validate_text text_input (vocabulary_of uploaded_file);
     st_markdown md_results_heading;
     st_markdown md_compliant;
     st_markdown md_highlight_heading;
     st_markdown (md_highlighted text_input)].
Proof.
  intros HV Htext Hok. unfold main.
  rewrite on_validate_passes by done. cbn zeta. rewrite Hok.
  assert (errors (validate_text validator text_input
                    (vocabulary_of uploaded_file)) = []) as ->.
  { cbn [compliant validate_text] in Hok.
    apply bool_decide_eq_true, nil_length_inv in Hok.
    cbn [errors validate_text]. by rewrite Hok. }
  rewrite format_unflagged; [by rewrite app_nil_r, <- !(assoc (++))|].
  intros word _ Hflag. by apply Exists_nil in Hflag.
Qed.

(** X15. A run that validates a non-compliant text lists one bullet for
    each distinct non-compliant word, in the order of the keys of the
    errors; a bullet carries the number of occurrences of its word among
    the tokens of the lowercased text when that is above 1, and no
    number when the word occurs once.  The text shown is highlighted
    with the keys of the errors. *)
Theorem non_compliant_run validator uploaded_file text_input :
  let vocabulary := vocabulary_of uploaded_file in
  let result := validate_text validator text_input vocabulary in
  let words := findall (str_lower text_input) in
  vocabulary ≠ ∅ →
  forallb isspace text_input = false →
  compliant result = false →
  main validator uploaded_file text_input true
  = main validator uploaded_file text_input false ++
    [call_validate_text text_input vocabulary;
     st_markdown md_results_heading;
     st_markdown md_non_compliant] ++
    ((λ word, st_markdown
                (md_bullet word
                   (if decide (1 < occurrences word words)
                    then Some (occurrences word words) else None)))
       <$> keys (errors result)) ++
    [st_markdown md_highlight_heading;
     st_markdown
       (md_highlighted
          (format_text_with_highlights text_input (keys (errors result))))].
Proof.
  intros vocabulary result words HV Htext Hbad. unfold main.
  rewrite on_validate_passes by done. cbn zeta.
  fold vocabulary. fold result. rewrite Hbad.
  assert (bullet <$> errors result
          = (λ word, st_markdown
                       (md_bullet word
                          (if decide (1 < occurrences word words)
                           then Some (occurrences word words) else None)))
              <$> keys (errors result)) as ->.
  { unfold keys. rewrite <- list_fmap_compose. apply list_fmap_ext.
    intros i [word n] Hentry%list_elem_of_lookup_2. cbn [bullet compose fst].
    apply counter_of_entry in Hentry as [Hword ->].
    apply list_elem_of_filter in Hword as [Hword _].
    unfold non_compliant_words_of.
    by rewrite (occurrences_filter _ _ _ Hword). }
  by rewrite app_nil_r, <- !(assoc (++)).
Qed.
End page_more.

(** ** Validation and highlighting together

    [main] highlights the text with the keys of the errors.  The validator
    lowercases the text and then cuts it, the highlighter cuts the text
    and then lowercases the tokens.  The two agree on a text that
    lowercasing maps character by character, keeping its word characters
    and the others apart. *)

Section together.
Context `{UnicodeData}.
Implicit Types (self : SpanishValidator) (text : str) (vocabulary : gset str).








End together.

Lemma latin1_lower_idempotent (c : char) :
  Latin1.lower_char (Latin1.lower_char c) = Latin1.lower_char c.
Proof.
  destruct (decide (c < 256)%N) as [Hc|Hc].
  - assert (Hall : forallb (λ n, bool_decide
        (Latin1.lower_char (Latin1.lower_char (N.of_nat n))
         = Latin1.lower_char (N.of_nat n))) (seq 0 256) = true)
      by (vm_compute; reflexivity).
    rewrite forallb_forall in Hall. specialize (Hall (N.to_nat c)).
    rewrite N2Nat.id in Hall. eapply bool_decide_eq_true_1, Hall, in_seq. lia.
  - assert (Latin1.lower_char c = c) as Hfix; [|by rewrite !Hfix].
    unfold Latin1.lower_char, Latin1.in_range.
    replace (c <=? 90)%N with false by (symmetry; apply N.leb_gt; lia).
    replace (c <=? 214)%N with false by (symmetry; apply N.leb_gt; lia).
    replace (c <=? 222)%N with false by (symmetry; apply N.leb_gt; lia).
    by rewrite !andb_false_r.
Qed.

(** ** The vocabulary file, the errors and the bullets *)

Section listed_words.
Context `{UnicodeData}.

Lemma bullet_in_main (validator : SpanishValidator)
    (uploaded_file : option (list str)) (text_input : str) (button : bool)
    (word : str) (times : option nat) :
  st_markdown (md_bullet word times)
    ∈ main validator uploaded_file text_input button →
  word ∈ keys (errors (validate_text validator text_input
                         (vocabulary_of uploaded_file))).
Proof.
  unfold main. rewrite !elem_of_app. intros [Hin|[Hin|Hin]].
  - rewrite !elem_of_cons, elem_of_nil in Hin. by destruct Hin as [|[|[|]]].
  - destruct uploaded_file; [|by apply elem_of_nil in Hin].
    by apply list_elem_of_singleton in Hin.
  - destruct button; [|by apply elem_of_nil in Hin].
    unfold on_validate in Hin.
    destruct (decide (vocabulary_of uploaded_file = ∅));
      [by apply list_elem_of_singleton in Hin|].
    destruct (decide (strip text_input = []));
      [by apply list_elem_of_singleton in Hin|].
    cbn zeta in Hin. rewrite !elem_of_app, !elem_of_cons, elem_of_nil in Hin.
    destruct Hin as [[|[|[]]]|[Hmid|[|[|[]]]]]; try done.
    destruct (compliant _); [by apply list_elem_of_singleton in Hmid|].
    apply elem_of_cons in Hmid as [|Hmid]; [done|].
    apply list_elem_of_fmap in Hmid as ([w cnt] & Heq & Hentry).
    cbn [bullet] in Heq. injection Heq as -> _.
    by apply (list_elem_of_fmap_2 fst) in Hentry.
Qed.

(** X18. A word of the uploaded vocabulary file never gets a bullet: if a
    line of the file, without the white space around it, is the word in
    some letter case, no run lists the lowercase form of the word among
    the non-compliant words, whatever the text and the tagger. *)
Theorem listed_word_gets_no_bullet (validator : SpanishValidator)
    (lines : list str) (line word : str) (text_input : str) (button : bool)
    (times : option nat) :
  line ∈ lines → strip line ≠ [] →
  str_lower word = str_lower (strip line) →
  st_markdown (md_bullet (str_lower word) times)
    ∉ main validator (Some lines) text_input button.
Proof.
  intros Hline Hne Heq Hin%bullet_in_main.
  apply elem_of_keys_errors in Hin as (_ & HV & _). apply HV.
  cbn [vocabulary_of]. unfold load_vocabulary.
  rewrite elem_of_list_to_set, list_elem_of_fmap.
  exists line. split; [done|]. by apply list_elem_of_filter.
Qed.

(** X19. Where lowercasing a lowercased string changes nothing, every
    word of the loaded vocabulary is its own lowercase form. *)
Theorem loaded_vocabulary_lowercase (lines : list str) (word : str) :
  (∀ s, str_lower (str_lower s) = str_lower s) →
  word ∈ load_vocabulary lines → str_lower word = word.
Proof.
  intros Hid (line & -> & _)%elem_of_list_to_set%list_elem_of_fmap.
  apply Hid.
Qed.

(** X20. Every key of the errors is a non-empty string of word
    characters: white space and punctuation are never reported. *)
Theorem errors_keys_are_words (self : SpanishValidator) (text : str)
    (vocabulary : gset str) (k : str) :
  k ∈ keys (errors (validate_text self text vocabulary)) →
  k ≠ [] ∧ forallb is_word k = true.
Proof.
  intros [(m & -> & Hm)%list_elem_of_fmap _]%elem_of_keys_errors.
  by apply group_word, finditer_sound.
Qed.
End listed_words.

(** ** The table with the dotted capital I *)




Lemma latin1_lower_not_dotted (c : char) :
  c ≠ 304%N → Latin1.lower_char c ≠ 304%N.
Proof.
  intros Hc. unfold Latin1.lower_char, Latin1.in_range.
  destruct (_ || _) eqn:Hup; [|done].
  apply orb_true_iff in Hup as [Hup|Hup]; [apply orb_true_iff in Hup as [Hup|Hup]|];
    apply andb_true_iff in Hup as [_ Hle]; apply N.leb_le in Hle; lia.
Qed.

(** Lowercasing a lowercased string changes nothing, here too. *)
Lemma dotted_lower_twice (s : str) :
  @str_lower Dotted.table (@str_lower Dotted.table s)
  = @str_lower Dotted.table s.
Proof.
  cbn [str_lower Dotted.table].
  induction s as [|c s IH]; [done|].
  rewrite fmap_cons. cbn [concat]. rewrite fmap_app, concat_app, IH. f_equal.
  unfold Dotted.lower_one at 2 3. destruct (c =? 304)%N eqn:Hc; [reflexivity|].
  apply N.eqb_neq in Hc. cbn [fmap list_fmap concat]. rewrite app_nil_r.
  unfold Dotted.lower_one.
  apply latin1_lower_not_dotted, N.eqb_neq in Hc. rewrite Hc.
  by rewrite latin1_lower_idempotent.
Qed.

(** ** Runs on concrete texts *)

Section runs.
Import Examples.
Local Existing Instance Latin1.table.

Example gato_result :
  validate_text tagger gato_text gato_vocabulary
  = {| compliant := false;
       errors := [(lit "pescados", 1); (lit "hoy", 1)] |}.
Proof. vm_compute. reflexivity. Qed.

Example hola_result :
  validate_text tagger hola_text hola_vocabulary
  = {| compliant := true; errors := [] |}.
Proof. vm_compute. reflexivity. Qed.

Example gato_highlighted :
  format_text_with_highlights gato_text [lit "pescados"; lit "hoy"]
  = lit "El gato Fluffy come 3 " ++ span (lit "pescados") ++ lit " "
      ++ span (lit "hoy").
Proof. vm_compute. reflexivity. Qed.

Example empty_vocabulary_blocked :
  main tagger None gato_text true
  = [st_set_page_config; st_markdown md_css; st_title;
     st_warning "Please load a vocabulary file first."].
Proof. vm_compute. reflexivity. Qed.

Example repeated_word_counted :
  errors (validate_text tagger (lit "Hoy no, HOY si; hoy") (words_of ["si"]))
  = [(lit "hoy", 3); (lit "no", 1)].
Proof. vm_compute. reflexivity. Qed.


Lemma errors_entries_positive_witness :
  1 ≤ 1 ∧ lit "hoy" ∈ findall (str_lower gato_text).
Proof.
  apply (errors_entries_positive tagger gato_text gato_vocabulary).
  by_compute.
Defined.

Lemma numeric_token_exempt_when_tagged_witness :
  lit "3" ∉ keys (errors (validate_text tagger gato_text gato_vocabulary)).
Proof.
  apply numeric_token_exempt_when_tagged; [by_compute|reflexivity|].
  exists (Stub.tag [lit "Fluffy"] (lit "3")).
  split; [|split; reflexivity].
  apply (list_elem_of_lookup_2 _ 4). reflexivity.
Defined.

(** C4 as stated fails: the tagger reads [12.5] as one numeral-like
    token, the pattern reads the tokens [12] and [5], and neither is in
    the set of numbers. *)
Lemma numeric_token_in_errors :
  lit "12" ∈ findall precio_text ∧
  forallb is_digit (lit "12") = true ∧
  nlp tagger precio_text
  = [ {| text_ := lit "Cuesta"; pos_ := "X"; like_num := false |};
      {| text_ := lit "12.5"; pos_ := "NUM"; like_num := true |};
      {| text_ := lit "euros"; pos_ := "X"; like_num := false |} ] ∧
  errors (validate_text tagger precio_text precio_vocabulary)
  = [(lit "12", 1); (lit "5", 1)] ∧
  lit "12" ∈ keys (errors (validate_text tagger precio_text precio_vocabulary)).
Proof.
  split_and!; [by_compute|reflexivity|reflexivity|by vm_compute|by_compute].
Qed.

Lemma highlight_keeps_surface_form_witness :
  formatted_parts_of (lit "Hoy llueve") [lit "hoy"] !! (2 * 0 + 1)
  = Some (span_open ++ slice (lit "Hoy llueve") 0 3 ++ span_close).
Proof.
  apply (highlight_keeps_surface_form _ _ 0 {| start := 0; end_ := 3 |});
    [reflexivity|].
  exists (lit "hoy"). split; [by_compute|reflexivity].
Defined.

Example surface_form_kept :
  format_text_with_highlights (lit "Hoy llueve") [lit "hoy"]
  = span (lit "Hoy") ++ lit " llueve".
Proof. vm_compute. reflexivity. Qed.

Lemma guards_skip_validation_witness :
  (∃ msg, main tagger (Some [lit "hola"; lit "mundo"]) (lit "  ") true
          = main tagger (Some [lit "hola"; lit "mundo"]) (lit "  ") false
              ++ [st_warning msg]) ∧
  Forall (λ e, is_result e = false)
         (main tagger (Some [lit "hola"; lit "mundo"]) (lit "  ") true).
Proof. apply guards_skip_validation. right. reflexivity. Defined.

(** On Latin-1 text a count gathers the case variants of the word. *)
Example latin1_count_case_variants (self : SpanishValidator) (text : str)
    (vocabulary : gset str) (k : str) :
  k ∈ keys (errors (validate_text self text vocabulary)) →
  count (errors (validate_text self text vocabulary)) k
  = length (filter (λ token, str_lower token = k) (findall text)).
Proof.
  apply (errors_count_case_variants Latin1.lower_char); [done|].
  apply latin1_lower_word.
Qed.
End runs.

(** ** More runs on concrete texts *)

Section more_runs.
Import Examples Uploads.
Local Existing Instance Latin1.table.

Example gato_lines_loaded : load_vocabulary gato_lines = gato_vocabulary.
Proof. by_compute. Qed.

Lemma proper_noun_not_in_errors_witness :
  str_lower (lit "Fluffy")
    ∉ keys (errors (validate_text tagger gato_text gato_vocabulary)).
Proof.
  apply (proper_noun_not_in_errors tagger gato_text gato_vocabulary
           (Stub.tag [lit "Fluffy"] (lit "Fluffy"))); [|reflexivity].
  apply (list_elem_of_lookup_2 _ 2). reflexivity.
Defined.

Lemma no_word_text_compliant_witness :
  validate_text tagger (lit "... !?") gato_vocabulary
  = {| compliant := true; errors := [] |}.
Proof. apply no_word_text_compliant. reflexivity. Defined.

Lemma highlight_error_words_as_set_witness :
  format_text_with_highlights (lit "Hoy llueve") [lit "Hoy"; lit "hoy"]
  = format_text_with_highlights (lit "Hoy llueve") [lit "HOY"].
Proof.
  apply highlight_error_words_as_set. intros word.
  change (word ∈ [lit "hoy"; lit "hoy"] ↔ word ∈ [lit "hoy"]).
  rewrite !elem_of_cons. tauto.
Defined.

Lemma load_vocabulary_as_set_witness :
  load_vocabulary [lit "el"; lit "gato"; lit "el"]
  = load_vocabulary [lit "gato"; lit "el"].
Proof.
  apply load_vocabulary_as_set. intros line.
  rewrite !elem_of_cons. tauto.
Defined.

Lemma compliant_run_witness :
  main tagger (Some hola_lines) hola_text true
  = main tagger (Some hola_lines) hola_text false ++
    [call_validate_text hola_text (vocabulary_of (Some hola_lines));
     st_markdown md_results_heading;
     st_markdown md_compliant;
     st_markdown md_highlight_heading;
     st_markdown (md_highlighted hola_text)].
Proof.
  apply compliant_run; [by_compute|reflexivity|reflexivity].
Defined.

Lemma non_compliant_run_witness :
  main tagger (Some gato_lines) gato_text true
  = main tagger (Some gato_lines) gato_text false ++
    [call_validate_text gato_text (vocabulary_of (Some gato_lines));
     st_markdown md_results_heading;
     st_markdown md_non_compliant] ++
    ((λ word, st_markdown
                (md_bullet word
                   (if decide (1 < occurrences word (findall (str_lower gato_text)))
                    then Some (occurrences word (findall (str_lower gato_text)))
                    else None)))
       <$> keys (errors (validate_text tagger gato_text
                           (vocabulary_of (Some gato_lines))))) ++
    [st_markdown md_highlight_heading;
     st_markdown
       (md_highlighted
          (format_text_with_highlights gato_text
             (keys (errors (validate_text tagger gato_text
                              (vocabulary_of (Some gato_lines)))))))].
Proof.
  apply (non_compliant_run tagger (Some gato_lines) gato_text);
    [by_compute|reflexivity|reflexivity].
Defined.

Example gato_run :
  main tagger (Some gato_lines) (lit "Hoy el gato come; HOY no") true
  = [st_set_page_config; st_markdown md_css; st_title; st_success 4;
     call_validate_text (lit "Hoy el gato come; HOY no") gato_vocabulary;
     st_markdown md_results_heading;
     st_markdown md_non_compliant;
     st_markdown (md_bullet (lit "hoy") (Some 2));
     st_markdown (md_bullet (lit "no") None);
     st_markdown md_highlight_heading;
     st_markdown
       (md_highlighted
          (span (lit "Hoy") ++ lit " el gato come; " ++ span (lit "HOY")
             ++ lit " " ++ span (lit "no")))].
Proof. vm_compute. reflexivity. Qed.

Example gato_marked_and_counted :
  filter (flagged (keys (errors (validate_text tagger gato_text
                                   gato_vocabulary))))
         (findall gato_text)
  = [lit "pescados"; lit "hoy"] ∧
  sum_list (errors (validate_text tagger gato_text gato_vocabulary)).*2 = 2.
Proof. split; vm_compute; reflexivity. Qed.
End more_runs.

Section listed_runs.
Import Examples Uploads.
Local Existing Instance Latin1.table.

Lemma listed_word_gets_no_bullet_witness :
  st_markdown (md_bullet (str_lower (lit "GATO")) None)
    ∉ main tagger (Some gato_lines) (lit "Un GATO") true.
Proof.
  apply (listed_word_gets_no_bullet tagger gato_lines (lit "  Gato " ++ [10%N]));
    [|by_compute|reflexivity].
  apply (list_elem_of_lookup_2 _ 1). reflexivity.
Defined.

Lemma errors_keys_are_words_witness :
  lit "pescados" ≠ [] ∧ forallb is_word (lit "pescados") = true.
Proof.
  apply (errors_keys_are_words tagger gato_text gato_vocabulary). by_compute.
Defined.
End listed_runs.

Section mixed_runs.
Import Examples Mixed.
Local Existing Instance Latin1.table.

End mixed_runs.

Section dotted_runs.
Import Examples Dotted.
Local Existing Instance Dotted.table.

(** The validator lowercases [İ i] to [i], U+0307, a space and [i], and
    counts the token [i] twice; the highlighter finds the tokens [İ] and
    [i], and only the second has the lowercase form [i]. *)
Example dotted_counted_twice_marked_once :
  errors (validate_text tagger dotted_text ∅) = [(lit "i", 2)] ∧
  filter (flagged (keys (errors (validate_text tagger dotted_text ∅))))
         (findall dotted_text)
  = [lit "i"] ∧
  findall (str_lower dotted_text) = [lit "i"; lit "i"] ∧
  str_lower <$> findall dotted_text = [[105%N; 775%N]; lit "i"].
Proof. split_and!; vm_compute; reflexivity. Qed.


Lemma loaded_vocabulary_lowercase_witness :
  str_lower (lit "gato") = lit "gato".
Proof.
  apply (loaded_vocabulary_lowercase Uploads.gato_lines);
    [apply dotted_lower_twice|by_compute].
Defined.
End dotted_runs.

